(** * Order Execution Engine: shallow embedding of the router, the order
    service, the WebSocket manager, the executor worker and the HTTP route.

    Numbers of the TypeScript code ([number]) are modelled as exact
    rationals [Q]; every call to [Math.random()] is an explicit argument
    (a draw in [0,1)). Awaited calls are sequenced in a state/error monad;
    the points where an async function yields are made explicit where a
    claim depends on interleaving. *)

From Stdlib Require Import QArith Qabs Lqa Psatz ZArith Qround Ascii Sorting.Sorted Sorting.Permutation.
From stdpp Require Import base gmap strings list.

Open Scope Q_scope.

(* ------------------------------------------------------------------ *)
(** ** src/services/dexRouter.ts *)

Inductive Dex := Raydium | Meteora.

#[global] Instance Dex_eq_dec : EqDecision Dex.
Proof. solve_decision. Defined.

Record DexQuote := mkQuote {
  dex : Dex;
  price : Q;
  amountOut : Q;
  fee : Q;
  feePercent : Q
}.

Record ExecutionResult := mkExecutionResult {
  txHash : string;
  executedPrice : Q;
  execAmountOut : Q;
  execDex : Dex
}.

(** [String.prototype.toLowerCase] on ASCII text. *)
Definition ascii_lower (c : Ascii.ascii) : Ascii.ascii :=
  let n := Ascii.nat_of_ascii c in
  if (65 <=? n)%nat && (n <=? 90)%nat then Ascii.ascii_of_nat (n + 32) else c.

Fixpoint toLowerCase (s : string) : string :=
  match s with
  | EmptyString => EmptyString
  | String c s' => String (ascii_lower c) (toLowerCase s')
  end.

(** [generateMockTxHash]: [rnd i] is the draw of iteration [i];
    [String.prototype.charAt] gives [""] out of range. *)
Definition txHash_chars : string :=
  "123456789ABCDEFGHJKLMNPQRSTUVWXYZabcdefghijkmnopqrstuvwxyz".

Definition charAt (s : string) (i : Z) : string :=
  if (i <? 0)%Z then ""
  else match String.get (Z.to_nat i) s with Some c => String c "" | None => "" end.

Definition generateMockTxHash (rnd : nat -> Q) : string :=
  fold_left (fun hash i =>
      hash +:+ charAt txHash_chars
                 (Qfloor (rnd i * inject_Z (Z.of_nat (String.length txHash_chars)))))
    (seq 0 64) "".

(** JavaScript [x || d] on a number: [0] is falsy, an absent key is
    [undefined] (falsy). *)
Definition num_or (x : option Q) (d : Q) : Q :=
  match x with
  | Some v => if Qeq_bool v 0 then d else v
  | None => d
  end.

Definition basePrices : gmap string Q :=
  list_to_map [("sol_usdc", 100); ("usdc_sol", 1 # 100);
               ("sol_usdt", 100); ("usdt_sol", 1 # 100)].

Definition calculateBasePrice (tokenIn tokenOut : string) (amountIn : Q) : Q :=
  let pairKey := toLowerCase tokenIn +:+ "_" +:+ toLowerCase tokenOut in
  let basePrice := num_or (basePrices !! pairKey) 1 in
  basePrice * amountIn.

(** [getRaydiumQuote]; [rnd] is the second [Math.random()] draw (the first
    one only sets the artificial delay). *)
Definition getRaydiumQuote (tokenIn tokenOut : string) (amountIn rnd : Q) : DexQuote :=
  let baseAmount := calculateBasePrice tokenIn tokenOut amountIn in
  let priceVariance := (98 # 100) + rnd * (4 # 100) in
  let feePct := 3 # 1000 in
  let amountOut := baseAmount * priceVariance * (1 - feePct) in
  let price := amountOut / amountIn in
  {| dex := Raydium; price := price; amountOut := amountOut;
     fee := baseAmount * priceVariance * feePct; feePercent := 3 # 10 |}.

Definition getMeteorQuote (tokenIn tokenOut : string) (amountIn rnd : Q) : DexQuote :=
  let baseAmount := calculateBasePrice tokenIn tokenOut amountIn in
  let priceVariance := (97 # 100) + rnd * (5 # 100) in
  let feePct := 2 # 1000 in
  let amountOut := baseAmount * priceVariance * (1 - feePct) in
  let price := amountOut / amountIn in
  {| dex := Meteora; price := price; amountOut := amountOut;
     fee := baseAmount * priceVariance * feePct; feePercent := 2 # 10 |}.

(** The selection of [routeBestPrice]:
    [raydiumQuote.amountOut > meteoraQuote.amountOut ? raydiumQuote : meteoraQuote]. *)
Definition selectBest (raydiumQuote meteoraQuote : DexQuote) : DexQuote :=
  if Qlt_le_dec (amountOut meteoraQuote) (amountOut raydiumQuote)
  then raydiumQuote else meteoraQuote.

Record RouteResult := mkRouteResult {
  bestQuote : DexQuote;
  raydiumQuote : DexQuote;
  meteoraQuote : DexQuote
}.

Definition routeBestPrice (tokenIn tokenOut : string) (amountIn rndR rndM : Q)
  : RouteResult :=
  let raydiumQuote := getRaydiumQuote tokenIn tokenOut amountIn rndR in
  let meteoraQuote := getMeteorQuote tokenIn tokenOut amountIn rndM in
  {| bestQuote := selectBest raydiumQuote meteoraQuote;
     raydiumQuote := raydiumQuote; meteoraQuote := meteoraQuote |}.

(** Thrown errors carry their message. *)
Definition Err := string.

Definition slippage_message : Err := "Slippage tolerance exceeded".

(** [executeSwap]; [rnd] is the [Math.random()] draw of the price movement,
    [hash] the generated mock transaction hash. *)
Definition executeSwap (d : Dex) (tokenIn tokenOut : string)
    (amountIn expectedPrice slippageBps rnd : Q) (hash : string)
  : Err + ExecutionResult :=
  let priceSlippage := 1 + (rnd - (1 # 2)) * (slippageBps / 10000) * (8 # 10) in
  let executedPrice := expectedPrice * priceSlippage in
  let amountOut := amountIn * executedPrice in
  let actualSlippageBps := Qabs ((executedPrice - expectedPrice) / expectedPrice * 10000) in
  if Qlt_le_dec slippageBps actualSlippageBps then inl slippage_message
  else inr {| txHash := hash; executedPrice := executedPrice;
              execAmountOut := amountOut; execDex := d |}.

Close Scope Q_scope.

(* ------------------------------------------------------------------ *)
(** ** src/services/orderService.ts: the [orders] and [order_attempts]
    tables of the schema, and the queries on them. *)

Inductive Status := Pending | Routing | Building | Submitted | Confirmed | Failed.

#[global] Instance Status_eq_dec : EqDecision Status.
Proof. solve_decision. Defined.

(** A row of the [orders] table. *)
Record OrderRow := mkOrderRow {
  id : string;
  user_wallet : string;
  token_in : string;
  token_out : string;
  amount_in : Q;
  order_type : string;
  slippage_bps : Q;
  status : Status;
  selected_dex : option Dex;
  quote_raydium : option Q;
  quote_meteora : option Q;
  executed_price : option Q;
  amount_out : option Q;
  tx_hash : option string;
  error_message : option string
}.

(** A row of the [order_attempts] table. *)
Record AttemptRow := mkAttemptRow {
  order_id : string;
  attempt_number : nat;
  attempt_status : Status;
  attempt_error : option string;
  dex_used : option Dex;
  attempted_at : nat
}.

(** The database: both tables and the clock of [CURRENT_TIMESTAMP]. *)
Record DB := mkDB {
  orders : gmap string OrderRow;
  order_attempts : list AttemptRow;
  clock : nat
}.

(** JavaScript [x || null] on an optional string, an optional number. *)
Definition str_or_null (x : option string) : option string :=
  match x with
  | Some EmptyString => None
  | Some s => Some s
  | None => None
  end.

Definition num_or_null (x : option Q) : option Q :=
  match x with
  | Some v => if Qeq_bool v 0 then None else Some v
  | None => None
  end.

Definition row_set_status (s : Status) (err : option string) (o : OrderRow) : OrderRow :=
  {| id := id o; user_wallet := user_wallet o; token_in := token_in o;
     token_out := token_out o; amount_in := amount_in o; order_type := order_type o;
     slippage_bps := slippage_bps o; status := s; selected_dex := selected_dex o;
     quote_raydium := quote_raydium o; quote_meteora := quote_meteora o;
     executed_price := executed_price o; amount_out := amount_out o;
     tx_hash := tx_hash o; error_message := err |}.

(** The [data] argument of [updateOrderExecution]. *)
Record ExecutionUpdate := mkExecutionUpdate {
  upd_status : Status;
  upd_selectedDex : Dex;
  upd_quoteRaydium : Q;
  upd_quoteMeteora : Q;
  upd_executedPrice : option Q;
  upd_amountOut : option Q;
  upd_txHash : option string;
  upd_errorMessage : option string
}.

Definition row_set_execution (u : ExecutionUpdate) (o : OrderRow) : OrderRow :=
  {| id := id o; user_wallet := user_wallet o; token_in := token_in o;
     token_out := token_out o; amount_in := amount_in o; order_type := order_type o;
     slippage_bps := slippage_bps o; status := upd_status u;
     selected_dex := Some (upd_selectedDex u);
     quote_raydium := Some (upd_quoteRaydium u); quote_meteora := Some (upd_quoteMeteora u);
     executed_price := num_or_null (upd_executedPrice u);
     amount_out := num_or_null (upd_amountOut u);
     tx_hash := str_or_null (upd_txHash u);
     error_message := str_or_null (upd_errorMessage u) |}.

(** [UPDATE orders SET ... WHERE id = $k]: no row, no change. *)
Definition update_order (oid : string) (f : OrderRow -> OrderRow) (d : DB) : DB :=
  match orders d !! oid with
  | Some o => {| orders := <[oid := f o]> (orders d);
                 order_attempts := order_attempts d; clock := clock d |}
  | None => d
  end.

(** The upsert of [recordAttempt]:
    [INSERT ... ON CONFLICT (order_id, attempt_number) DO UPDATE SET status,
    error_message, dex_used]; [attempted_at] keeps its insertion time. *)
Fixpoint upsert_attempt (oid : string) (n : nat) (s : Status) (err : option string)
    (dx : option Dex) (now : nat) (rows : list AttemptRow) : list AttemptRow :=
  match rows with
  | [] => [{| order_id := oid; attempt_number := n; attempt_status := s;
              attempt_error := err; dex_used := dx; attempted_at := now |}]
  | a :: rest =>
      if bool_decide (order_id a = oid) && (attempt_number a =? n)
      then {| order_id := oid; attempt_number := n; attempt_status := s;
              attempt_error := err; dex_used := dx; attempted_at := attempted_at a |} :: rest
      else a :: upsert_attempt oid n s err dx now rest
  end.

Definition fk_violation : string :=
  "insert or update on table order_attempts violates foreign key constraint".

(** [recordAttempt]; the foreign key [order_id REFERENCES orders(id)]
    rejects a row for a missing order. *)
Definition record_attempt (oid : string) (n : nat) (s : Status) (errorMessage : option string)
    (dexUsed : option Dex) (d : DB) : string + DB :=
  match orders d !! oid with
  | None => inl fk_violation
  | Some _ => inr {| orders := orders d;
                     order_attempts := upsert_attempt oid n s (str_or_null errorMessage)
                                         dexUsed (clock d) (order_attempts d);
                     clock := clock d |}
  end.

(** [getOrderAttempts]: [WHERE order_id = $1 ORDER BY attempted_at ASC,
    attempt_number ASC]. *)
Definition attempt_leb (a b : AttemptRow) : bool :=
  (attempted_at a <? attempted_at b)
  || ((attempted_at a =? attempted_at b) && (attempt_number a <=? attempt_number b)).

Fixpoint insert_attempt (a : AttemptRow) (l : list AttemptRow) : list AttemptRow :=
  match l with
  | [] => [a]
  | b :: l' => if attempt_leb a b then a :: b :: l' else b :: insert_attempt a l'
  end.

Fixpoint sort_attempts (l : list AttemptRow) : list AttemptRow :=
  match l with
  | [] => []
  | a :: l' => insert_attempt a (sort_attempts l')
  end.

Definition attempts_of (d : DB) (oid : string) : list AttemptRow :=
  filter (fun a => order_id a = oid) (order_attempts d).

Definition getOrderAttempts (d : DB) (oid : string) : list AttemptRow :=
  sort_attempts (attempts_of d oid).

(** The job options given by [createOrder] to [orderQueue.add]
    ([QUEUE_MAX_RETRIES] unset, so [attempts] is 3). *)
Record JobOpts := mkJobOpts {
  job_delay : nat;
  job_attempts : nat;
  backoff_delay : nat
}.

Definition max_retries : nat := 3.

Definition createOrder_opts : JobOpts :=
  {| job_delay := 10000; job_attempts := max_retries; backoff_delay := 2000 |}.



(* ------------------------------------------------------------------ *)
(** ** src/services/wsManager.ts and the WebSocket route of
    [registerOrderRoutes] *)

Inductive ReadyState := CONNECTING | OPEN | CLOSING | CLOSED.

#[global] Instance ReadyState_eq_dec : EqDecision ReadyState.
Proof. solve_decision. Defined.

Inductive Json := JStr (s : string) | JNum (q : Q) | JNat (n : nat).

(** The JSON messages written on a socket. *)
Inductive Msg :=
  (** the ['connected'] handshake of the route *)
  | MsgConnected (orderId : string)
  (** [stateMsg] of [registerConnection] ("Restored last known status") *)
  | MsgRestored (orderId : string) (st : Status) (selectedDex : option Dex)
      (executedPrice amountOut : option Q) (txHash : option string)
  (** [attemptMsg] of [registerConnection] ("Replayed attempt n") *)
  | MsgReplay (orderId : string) (a : AttemptRow)
  (** the envelope of [sendStatus] *)
  | MsgStatus (orderId : string) (st : Status) (payload : list (string * Json)).

(** A socket: its state and the messages written on it, oldest first. *)
Record Socket := mkSocket {
  readyState : ReadyState;
  sent : list Msg
}.

(** The sockets are shared objects: the registry [orderConnections] maps an
    order id to a socket identity, the socket store holds the sockets, and
    [closeHandlers] lists the ['close']/['error'] listeners installed by
    [registerConnection] (socket, order id). *)
Record WsState := mkWsState {
  orderConnections : gmap string nat;
  sockets : gmap nat Socket;
  closeHandlers : list (nat * string)
}.

(** [socket.send(...)]: written when the socket is open; [ws] reports a
    send on a closing or closed socket through its callback, so nothing is
    written and nothing is raised. *)
Definition socket_send (sid : nat) (m : Msg) (w : WsState) : WsState :=
  match sockets w !! sid with
  | Some s =>
      if decide (readyState s = OPEN)
      then {| orderConnections := orderConnections w;
              sockets := <[sid := {| readyState := readyState s; sent := sent s ++ [m] |}]> (sockets w);
              closeHandlers := closeHandlers w |}
      else w
  | None => w
  end.

(** [sendStatus] *)
Definition sendStatus (orderId : string) (st : Status) (payload : list (string * Json))
    (w : WsState) : WsState :=
  match orderConnections w !! orderId with
  | None => w
  | Some sid =>
      match sockets w !! sid with
      | None => w
      | Some s =>
          if decide (readyState s = OPEN)
          then socket_send sid (MsgStatus orderId st payload) w
          else w
      end
  end.

(** [registerConnection], cut at its two [await]s. First the synchronous
    prefix: [orderConnections.set(orderId, socket)]. *)
Definition reg_register (orderId : string) (sid : nat) (w : WsState) : WsState :=
  {| orderConnections := <[orderId := sid]> (orderConnections w);
     sockets := sockets w; closeHandlers := closeHandlers w |}.

(** After [await getOrderById]: the restored state message. *)
Definition reg_restore (orderId : string) (sid : nat) (d : DB) (w : WsState) : WsState :=
  match orders d !! orderId with
  | Some o => socket_send sid (MsgRestored orderId (status o) (selected_dex o)
                                (executed_price o) (amount_out o) (tx_hash o)) w
  | None => w
  end.

(** After [await getOrderAttempts]: one replay per attempt, then the
    ['close'] and ['error'] listeners. *)
Definition reg_replay (orderId : string) (sid : nat) (d : DB) (w : WsState) : WsState :=
  let w' := fold_left (fun w a => socket_send sid (MsgReplay orderId a) w)
              (getOrderAttempts d orderId) w in
  {| orderConnections := orderConnections w'; sockets := sockets w';
     closeHandlers := (sid, orderId) :: closeHandlers w' |}.

(** The transport closes socket [sid]: its state becomes [CLOSED] and each
    of its listeners runs [orderConnections.delete(orderId)]. *)
Definition socket_close (sid : nat) (w : WsState) : WsState :=
  let w1 := match sockets w !! sid with
            | Some s => {| orderConnections := orderConnections w;
                           sockets := <[sid := {| readyState := CLOSED; sent := sent s |}]> (sockets w);
                           closeHandlers := closeHandlers w |}
            | None => w
            end in
  fold_left (fun w h =>
      if decide (h.1 = sid)
      then {| orderConnections := delete h.2 (orderConnections w);
              sockets := sockets w; closeHandlers := closeHandlers w |}
      else w) (closeHandlers w1) w1.

(** [socket.close()] of [ws]: a closed socket stays closed; any other
    socket starts its closing handshake and is [CLOSING] until the transport
    reports the ['close'] event. *)
Definition socket_begin_close (sid : nat) (w : WsState) : WsState :=
  match sockets w !! sid with
  | Some s =>
      if decide (readyState s = CLOSED) then w
      else {| orderConnections := orderConnections w;
              sockets := <[sid := {| readyState := CLOSING; sent := sent s |}]> (sockets w);
              closeHandlers := closeHandlers w |}
  | None => w
  end.

(** [closeConnection] *)
Definition closeConnection (orderId : string) (w : WsState) : WsState :=
  match orderConnections w !! orderId with
  | Some sid =>
      let w1 := socket_begin_close sid w in
      {| orderConnections := delete orderId (orderConnections w1);
         sockets := sockets w1; closeHandlers := closeHandlers w1 |}
  | None => w
  end.

(** [getActiveConnectionCount] *)
Definition getActiveConnectionCount (w : WsState) : nat := size (orderConnections w).

(** The WebSocket route: [registerConnection(orderId, socket)] is not
    awaited, so its synchronous prefix runs, then the route sends the
    ['connected'] handshake. *)
Definition route_connect (orderId : string) (sid : nat) (w : WsState) : WsState :=
  socket_send sid (MsgConnected orderId) (reg_register orderId sid w).

(** What happens on the event loop while the connection task waits: it is
    resumed, or some other code publishes a status. *)
Inductive WsEvent :=
  | EvResume
  | EvPublish (orderId : string) (st : Status) (payload : list (string * Json)).

(** The connection task: [pc] is 0 while awaiting [getOrderById], 1 while
    awaiting [getOrderAttempts], 2 when done. *)
Definition task_step (orderId : string) (sid : nat) (d : DB) (pc : nat) (w : WsState)
  : nat * WsState :=
  match pc with
  | 0 => (1, reg_restore orderId sid d w)
  | 1 => (2, reg_replay orderId sid d w)
  | _ => (pc, w)
  end.

Definition run_event (orderId : string) (sid : nat) (d : DB)
    (st : nat * WsState) (e : WsEvent) : nat * WsState :=
  match e with
  | EvResume => task_step orderId sid d st.1 st.2
  | EvPublish o s p => (st.1, sendStatus o s p st.2)
  end.

(** A connection on the route followed by the events of the event loop. *)
Definition run_connection (orderId : string) (sid : nat) (d : DB) (w : WsState)
    (evs : list WsEvent) : nat * WsState :=
  fold_left (run_event orderId sid d) evs (0, route_connect orderId sid w).





(* ------------------------------------------------------------------ *)
(** ** src/workers/executor.ts: [processOrder] *)

(** The state the worker acts on: the database, the socket registry, and
    the log of [sendStatus] calls (order id, status). *)
Record World := mkWorld {
  db : DB;
  wss : WsState;
  published : list (string * Status)
}.

(** The state/error monad of an async function: a rejected promise is
    [inl] with the error message. *)
Definition M (A : Type) : Type := World -> World * (Err + A).

Definition ret {A} (a : A) : M A := fun w => (w, inr a).
Definition throw {A} (e : Err) : M A := fun w => (w, inl e).
Definition bind {A B} (m : M A) (k : A -> M B) : M B :=
  fun w => match m w with
           | (w', inl e) => (w', inl e)
           | (w', inr a) => k a w'
           end.
Definition catch {A} (m : M A) (h : Err -> M A) : M A :=
  fun w => match m w with
           | (w', inl e) => h e w'
           | r => r
           end.
Definition lift {A} (r : Err + A) : M A := fun w => (w, r).

Notation "x <- m ;; k" := (bind m (fun x => k))
  (at level 95, m at next level, right associativity).
Notation "m ;;; k" := (bind m (fun _ => k)) (at level 95, right associativity).

(** The database calls of [processOrder], one per call site. *)
Inductive DbCall :=
  | CallGetOrder
  | CallUpdateStatus (s : Status)
  | CallRecordAttempt (s : Status)
  | CallUpdateExecution.

(** Everything an attempt receives from outside: which database calls
    reject (and with which message), the [Math.random()] draws of the two
    quotes and of the execution, and the generated transaction hash. *)
Record AttemptEnv := mkAttemptEnv {
  fault : DbCall -> option Err;
  rndRaydium : Q;
  rndMeteora : Q;
  rndExec : Q;
  mockTxHash : string
}.

Definition set_db (d : DB) (w : World) : World :=
  {| db := d; wss := wss w; published := published w |}.

Definition tick (d : DB) : DB :=
  {| orders := orders d; order_attempts := order_attempts d; clock := S (clock d) |}.

(** [await pool.query(...)]: rejects when [fault] says so, otherwise
    applies the query. *)
Definition query {A} (env : AttemptEnv) (c : DbCall) (q : DB -> Err + (DB * A)) : M A :=
  fun w => match fault env c with
           | Some e => (w, inl e)
           | None => match q (db w) with
                     | inl e => (w, inl e)
                     | inr (d', a) => (set_db (tick d') w, inr a)
                     end
           end.

Definition getOrderById (env : AttemptEnv) (orderId : string) : M (option OrderRow) :=
  query env CallGetOrder (fun d => inr (d, orders d !! orderId)).

Definition updateOrderStatus (env : AttemptEnv) (orderId : string) (s : Status)
    (errorMessage : option string) : M unit :=
  query env (CallUpdateStatus s)
    (fun d => inr (update_order orderId (row_set_status s (str_or_null errorMessage)) d, tt)).

Definition updateOrderExecution (env : AttemptEnv) (orderId : string)
    (data : ExecutionUpdate) : M unit :=
  query env CallUpdateExecution
    (fun d => inr (update_order orderId (row_set_execution data) d, tt)).

Definition recordAttempt (env : AttemptEnv) (orderId : string) (attemptNumber : nat)
    (s : Status) (errorMessage : option string) (dexUsed : option Dex) : M unit :=
  query env (CallRecordAttempt s)
    (fun d => match record_attempt orderId attemptNumber s errorMessage dexUsed d with
              | inl e => inl e
              | inr d' => inr (d', tt)
              end).

Definition sendStatusM (orderId : string) (st : Status) (payload : list (string * Json))
  : M unit :=
  fun w => ({| db := db w; wss := sendStatus orderId st payload (wss w);
               published := published w ++ [(orderId, st)] |}, inr tt).

Definition dex_name (d : Dex) : string :=
  match d with Raydium => "raydium" | Meteora => "meteora" end.

(** [processOrder(job)] with [job.attemptsMade = attemptsMade]; the sleeps
    are omitted. *)
Definition processOrder (attemptsMade : nat) (env : AttemptEnv) (orderId : string) : M unit :=
  let attemptNumber := S attemptsMade in
  catch
    (order_opt <- getOrderById env orderId ;;
     match order_opt with
     | None => throw ("Order " +:+ orderId +:+ " not found")
     | Some order =>
       sendStatusM orderId Pending
         [("message", JStr "Order received and queued for execution")] ;;;
       updateOrderStatus env orderId Routing None ;;;
       sendStatusM orderId Routing
         [("message", JStr "Comparing prices from Raydium and Meteora")] ;;;
       let r := routeBestPrice (token_in order) (token_out order) (amount_in order)
                  (rndRaydium env) (rndMeteora env) in
       let best := bestQuote r in
       recordAttempt env orderId attemptNumber Routing None (Some (dex best)) ;;;
       updateOrderStatus env orderId Building None ;;;
       sendStatusM orderId Building
         [("message", JStr "Building transaction");
          ("selectedDex", JStr (dex_name (dex best)));
          ("raydiumQuote", JNum (price (raydiumQuote r)));
          ("meteoraQuote", JNum (price (meteoraQuote r)));
          ("bestPrice", JNum (price best))] ;;;
       updateOrderStatus env orderId Submitted None ;;;
       sendStatusM orderId Submitted
         [("message", JStr "Transaction submitted to network");
          ("dex", JStr (dex_name (dex best)))] ;;;
       executionResult <- lift (executeSwap (dex best) (token_in order) (token_out order)
                                  (amount_in order) (price best) (slippage_bps order)
                                  (rndExec env) (mockTxHash env)) ;;
       updateOrderExecution env orderId
         {| upd_status := Confirmed; upd_selectedDex := dex best;
            upd_quoteRaydium := price (raydiumQuote r);
            upd_quoteMeteora := price (meteoraQuote r);
            upd_executedPrice := Some (executedPrice executionResult);
            upd_amountOut := Some (execAmountOut executionResult);
            upd_txHash := Some (txHash executionResult);
            upd_errorMessage := None |} ;;;
       recordAttempt env orderId attemptNumber Confirmed None (Some (dex best)) ;;;
       sendStatusM orderId Confirmed
         [("message", JStr "Order executed successfully");
          ("txHash", JStr (txHash executionResult));
          ("executedPrice", JNum (executedPrice executionResult));
          ("amountOut", JNum (execAmountOut executionResult));
          ("dex", JStr (dex_name (dex best)));
          ("raydiumQuote", JNum (price (raydiumQuote r)));
          ("meteoraQuote", JNum (price (meteoraQuote r)))]
     end)
    (fun errorMessage =>
       recordAttempt env orderId attemptNumber Failed (Some errorMessage) None ;;;
       (if max_retries <=? attemptNumber
        then updateOrderStatus env orderId Failed (Some errorMessage) ;;;
             sendStatusM orderId Failed
               [("message", JStr "Order execution failed");
                ("error", JStr errorMessage);
                ("attempts", JNat attemptNumber)]
        else ret tt) ;;;
       throw errorMessage).

(* ------------------------------------------------------------------ *)
(** ** The retry engine of the job queue *)

(** Modelled from the spec (section 4.2; the queue library is not part of
    the repository): after the failed attempt number [attemptsMade]
    (1-based), the job is rescheduled with delay
    [baseDelay * 2^(attemptsMade - 1)] if [attemptsMade] is below the
    configured ceiling [attempts], and is dead otherwise. *)
Definition retry_backoff (opts : JobOpts) (attemptsMade : nat) : option nat :=
  if attemptsMade <? job_attempts opts
  then Some (backoff_delay opts * 2 ^ (attemptsMade - 1))
  else None.

Inductive JobEnd := JobCompleted | JobDead (e : Err) | JobWaiting.

(** Modelled from the spec: the queue dispatches the job to [processOrder]
    until it completes or is dead. [envs k] is the environment of the
    attempt with [attemptsMade = k]; [fuel] bounds the dispatches. The
    result counts the dispatches and lists the backoff delays. *)
Fixpoint run_job (opts : JobOpts) (fuel attemptsMade : nat) (envs : nat -> AttemptEnv)
    (orderId : string) (w : World) : World * (nat * list nat * JobEnd) :=
  match fuel with
  | 0 => (w, (0, [], JobWaiting))
  | S fuel' =>
      match processOrder attemptsMade (envs attemptsMade) orderId w with
      | (w1, inr _) => (w1, (1, [], JobCompleted))
      | (w1, inl e) =>
          match retry_backoff opts (S attemptsMade) with
          | Some d =>
              match run_job opts fuel' (S attemptsMade) envs orderId w1 with
              | (w2, (k, ds, en)) => (w2, (S k, d :: ds, en))
              end
          | None => (w1, (1, [], JobDead e))
          end
      end
  end.

(* ------------------------------------------------------------------ *)
(** ** The HTTP route [POST /api/orders/execute] of [registerOrderRoutes] *)







(* ------------------------------------------------------------------ *)
(** ** Auxiliary definitions and concrete inputs *)



(** A confirmed order, its database with one confirmed attempt, and two
    open sockets. *)
Definition confirmed_row : OrderRow :=
  {| id := "o1"; user_wallet := "wallet"; token_in := "SOL"; token_out := "USDC";
     amount_in := 1%Q; order_type := "market"; slippage_bps := 100%Q;
     status := Confirmed; selected_dex := Some Raydium; quote_raydium := Some 99%Q;
     quote_meteora := Some 98%Q; executed_price := Some 99%Q; amount_out := Some 99%Q;
     tx_hash := Some "tx"; error_message := None |}.

Definition confirmed_db : DB :=
  {| orders := <["o1" := confirmed_row]> ∅;
     order_attempts := [{| order_id := "o1"; attempt_number := 1; attempt_status := Confirmed;
                           attempt_error := None; dex_used := Some Raydium; attempted_at := 0 |}];
     clock := 1 |}.

Definition two_open_sockets : WsState :=
  {| orderConnections := ∅;
     sockets := <[1 := {| readyState := OPEN; sent := [] |}]>
                  (<[2 := {| readyState := OPEN; sent := [] |}]> ∅);
     closeHandlers := [] |}.

(** The same world with the persisted status of [orderId] replaced by
    [s]. *)
Definition with_persisted_status (orderId : string) (o : OrderRow) (s : Status) (w : World)
  : World :=
  set_db {| orders := <[orderId := row_set_status s (error_message o) o]> (orders (db w));
            order_attempts := order_attempts (db w); clock := clock (db w) |} w.

Definition confirmed_world : World :=
  {| db := confirmed_db; wss := two_open_sockets; published := [] |}.

Definition no_fault_env (hash : string) : AttemptEnv :=
  {| fault := fun _ => None; rndRaydium := 0; rndMeteora := 0; rndExec := 0;
     mockTxHash := hash |}.

(** An attempt whose routing record is rejected by the database. *)
Definition routing_record_fails_env : AttemptEnv :=
  {| fault := fun c => match c with
                       | CallRecordAttempt Routing => Some "connection terminated"
                       | _ => None
                       end;
     rndRaydium := 0; rndMeteora := 0; rndExec := 0; mockTxHash := "tx2" |}.

(** An attempt whose order read is rejected by the database. *)
Definition read_fails_env : AttemptEnv :=
  {| fault := fun c => match c with
                       | CallGetOrder => Some "connection refused"
                       | _ => None
                       end;
     rndRaydium := 0; rndMeteora := 0; rndExec := 0; mockTxHash := "tx2" |}.

(** Predicates on a world preserved by a computation. *)
Definition preserves {A} (P : World -> Prop) (m : M A) : Prop :=
  forall w, P w -> P (m w).1.

Definition order_exists (orderId : string) (w : World) : Prop :=
  is_Some (orders (db w) !! orderId).


(** The confirmed order reset to [pending], with its result fields kept. *)
Definition pending_world : World := with_persisted_status "o1" confirmed_row Pending confirmed_world.

(** An attempt whose confirmed record is rejected by the database, after
    the execution data has been written. *)
Definition confirmed_record_fails_env : AttemptEnv :=
  {| fault := fun c => match c with
                       | CallRecordAttempt Confirmed => Some "connection terminated"
                       | _ => None
                       end;
     rndRaydium := 0; rndMeteora := 0; rndExec := 0; mockTxHash := "tx1" |}.

(** The first attempt loses its confirmed record; the retry loses its
    routing record. *)
Definition retry_after_confirm_envs (n : nat) : AttemptEnv :=
  if n =? 0 then confirmed_record_fails_env else routing_record_fails_env.


(** The fields of an order fixed at creation. *)
Definition inputs_of (o : OrderRow) : string * string * string * string * Q * string * Q :=
  (id o, user_wallet o, token_in o, token_out o, amount_in o, order_type o, slippage_bps o).

Definition order_inputs (w : World) : gmap string (string * string * string * string * Q * string * Q) :=
  inputs_of <$> orders (db w).

(** No [failed] publish and no order newly [failed] since [w0]. *)
Definition no_new_failure (w0 w : World) : Prop :=
  (exists l, published w = published w0 ++ l /\ Forall (fun p => p.2 <> Failed) l)
  /\ (forall k o', orders (db w) !! k = Some o' -> status o' = Failed ->
      exists o, orders (db w0) !! k = Some o /\ status o = Failed).

(** [sendStatus] called in turn for each (status, payload). *)
Definition publish_all (orderId : string) (l : list (Status * list (string * Json)))
    (w : WsState) : WsState :=
  fold_left (fun w sp => sendStatus orderId sp.1 sp.2 w) l w.


(* ================================================================== *)
(** * Properties *)

(* ------------------------------------------------------------------ *)
(** ** Quotes and execution *)

Open Scope Q_scope.




Close Scope Q_scope.

Open Scope Q_scope.







Close Scope Q_scope.

(* ------------------------------------------------------------------ *)
(** ** The socket registry *)















(** A status published while [registerConnection] awaits the order read
    reaches the client before the snapshot. *)
Lemma connection_live_status_before_snapshot :
  exists s, sockets (run_connection "o1" 1 confirmed_db two_open_sockets
                       [EvPublish "o1" Confirmed []; EvResume; EvResume]).2 !! 1 = Some s
         /\ take 3 (sent s) = [MsgConnected "o1"; MsgStatus "o1" Confirmed [];
                               MsgRestored "o1" Confirmed (Some Raydium) (Some 99%Q) (Some 99%Q) (Some "tx")].
Proof. eexists. vm_compute. split; reflexivity. Qed.



(** Claim C7: with no registered socket for the order, or a registered
    socket that is not open, [sendStatus] returns and changes nothing. *)
Theorem sendStatus_silent_noop (orderId : string) (st : Status)
    (payload : list (string * Json)) (w : WsState) :
  (orderConnections w !! orderId = None
   \/ exists sid s, orderConnections w !! orderId = Some sid /\ sockets w !! sid = Some s
                    /\ readyState s <> OPEN) ->
  sendStatus orderId st payload w = w.
Proof.
  unfold sendStatus. intros [H | (sid & s & H & Hs & Hrs)]; rewrite H; [reflexivity|].
  rewrite Hs. rewrite decide_False by exact Hrs. reflexivity.
Qed.

Lemma sendStatus_silent_noop_witness :
  (orderConnections two_open_sockets !! "o1" = None
   \/ exists sid s, orderConnections two_open_sockets !! "o1" = Some sid
                    /\ sockets two_open_sockets !! sid = Some s /\ readyState s <> OPEN)
  /\ sendStatus "o1" Confirmed [] two_open_sockets = two_open_sockets.
Proof.
  split; [left; vm_compute; reflexivity |].
  apply sendStatus_silent_noop. left. vm_compute. reflexivity.
Defined.

(** Claim C8 (evaluation at the failing input): order "o1" is subscribed on
    socket 1, then on socket 2, which replaces socket 1 in the registry;
    socket 1 then closes, and its ['close'] listener deletes the entry of
    "o1", which now belongs to socket 2. A later status for "o1" reaches no
    socket, although socket 2, the newest, is open. *)
Theorem replaced_socket_close_drops_newest :
  let w1 := (run_connection "o1" 1 confirmed_db two_open_sockets [EvResume; EvResume]).2 in
  let w2 := (run_connection "o1" 2 confirmed_db w1 [EvResume; EvResume]).2 in
  let w3 := socket_close 1 w2 in
  orderConnections w2 !! "o1" = Some 2
  /\ orderConnections w3 !! "o1" = None
  /\ readyState <$> sockets w3 !! 2 = Some OPEN
  /\ sendStatus "o1" Confirmed [] w3 = w3.
Proof. vm_compute. repeat split; reflexivity. Qed.

(* ------------------------------------------------------------------ *)
(** ** The worker and the job queue *)

Lemma updateOrderStatus_run (env : AttemptEnv) (orderId : string) (s : Status)
    (e : option string) (w : World) :
  fault env (CallUpdateStatus s) = None ->
  updateOrderStatus env orderId s e w
  = (set_db (tick (update_order orderId (row_set_status s (str_or_null e)) (db w))) w, inr tt).
Proof. intros H. unfold updateOrderStatus, query. rewrite H. reflexivity. Qed.

Lemma recordAttempt_run (env : AttemptEnv) (orderId : string) (n : nat) (s : Status)
    (e : option string) (dx : option Dex) (w : World) (o : OrderRow) :
  fault env (CallRecordAttempt s) = None -> orders (db w) !! orderId = Some o ->
  recordAttempt env orderId n s e dx w
  = (set_db (tick {| orders := orders (db w);
                     order_attempts := upsert_attempt orderId n s (str_or_null e) dx
                                         (clock (db w)) (order_attempts (db w));
                     clock := clock (db w) |}) w, inr tt).
Proof. intros H Ho. unfold recordAttempt, query, record_attempt. rewrite H, Ho. reflexivity. Qed.

Lemma preserves_bind {A B} (P : World -> Prop) (m : M A) (k : A -> M B) :
  preserves P m -> (forall a, preserves P (k a)) -> preserves P (bind m k).
Proof.
  intros Hm Hk w Hw. unfold bind.
  specialize (Hm w Hw). destruct (m w) as [w' [e|a]]; [exact Hm | exact (Hk a w' Hm)].
Qed.

Lemma preserves_catch {A} (P : World -> Prop) (m : M A) (h : Err -> M A) :
  preserves P m -> (forall e, preserves P (h e)) -> preserves P (catch m h).
Proof.
  intros Hm Hh w Hw. unfold catch.
  specialize (Hm w Hw). destruct (m w) as [w' [e|a]]; [exact (Hh e w' Hm) | exact Hm].
Qed.

Lemma preserves_ret {A} (P : World -> Prop) (a : A) : preserves P (ret a).
Proof. intros w Hw. exact Hw. Qed.

Lemma preserves_throw {A} (P : World -> Prop) (e : Err) : preserves P (throw (A := A) e).
Proof. intros w Hw. exact Hw. Qed.

Lemma preserves_lift {A} (P : World -> Prop) (r : Err + A) : preserves P (lift r).
Proof. intros w Hw. exact Hw. Qed.

Lemma preserves_sendStatusM (oid orderId : string) (st : Status) (p : list (string * Json)) :
  preserves (order_exists oid) (sendStatusM orderId st p).
Proof. intros w Hw. exact Hw. Qed.

Lemma preserves_query {A} (oid : string) (env : AttemptEnv) (c : DbCall)
    (q : DB -> Err + (DB * A)) :
  (forall d d' a, q d = inr (d', a) -> is_Some (orders d !! oid) -> is_Some (orders d' !! oid)) ->
  preserves (order_exists oid) (query env c q).
Proof.
  intros Hq w Hw. unfold query.
  destruct (fault env c); [exact Hw|].
  destruct (q (db w)) as [e|[d' a]] eqn:E; [exact Hw|].
  exact (Hq _ _ _ E Hw).
Qed.

Lemma update_order_exists (oid orderId : string) (f : OrderRow -> OrderRow) (d : DB) :
  is_Some (orders d !! oid) -> is_Some (orders (update_order orderId f d) !! oid).
Proof.
  unfold update_order. intros H.
  destruct (orders d !! orderId) eqn:E; [|exact H]. cbn.
  destruct (decide (orderId = oid)) as [->|Hne].
  - rewrite lookup_insert_eq. eexists. reflexivity.
  - rewrite lookup_insert_ne by exact Hne. exact H.
Qed.

Lemma preserves_updateOrderStatus (oid : string) (env : AttemptEnv) (orderId : string)
    (s : Status) (e : option string) :
  preserves (order_exists oid) (updateOrderStatus env orderId s e).
Proof.
  apply preserves_query. intros d d' a [= <- _]. apply update_order_exists.
Qed.

Lemma preserves_updateOrderExecution (oid : string) (env : AttemptEnv) (orderId : string)
    (u : ExecutionUpdate) :
  preserves (order_exists oid) (updateOrderExecution env orderId u).
Proof.
  apply preserves_query. intros d d' a [= <- _]. apply update_order_exists.
Qed.

Lemma preserves_recordAttempt (oid : string) (env : AttemptEnv) (orderId : string) (n : nat)
    (s : Status) (e : option string) (dx : option Dex) :
  preserves (order_exists oid) (recordAttempt env orderId n s e dx).
Proof.
  apply preserves_query. intros d d' a Hq Hd.
  unfold record_attempt in Hq. destruct (orders d !! orderId); [|discriminate].
  injection Hq as <- _. exact Hd.
Qed.

Lemma preserves_getOrderById (oid : string) (env : AttemptEnv) (orderId : string) :
  preserves (order_exists oid) (getOrderById env orderId).
Proof. apply preserves_query. intros d d' a [= <- _]. auto. Qed.

Create HintDb preserve.

#[local] Hint Resolve preserves_updateOrderStatus preserves_updateOrderExecution
  preserves_recordAttempt preserves_getOrderById preserves_sendStatusM
  preserves_ret preserves_throw preserves_lift : preserve.




Lemma retry_backoff_createOrder (attemptsMade : nat) :
  retry_backoff createOrder_opts (S attemptsMade)
  = if S attemptsMade <? 3 then Some (2000 * 2 ^ attemptsMade) else None.
Proof. unfold retry_backoff. cbn [job_attempts backoff_delay createOrder_opts max_retries]. rewrite Nat.sub_1_r. reflexivity. Qed.

Lemma run_job_runs_delays (fuel attemptsMade : nat) (envs : nat -> AttemptEnv)
    (orderId : string) (w : World) :
  attemptsMade <= 2 ->
  match run_job createOrder_opts fuel attemptsMade envs orderId w with
  | (_, (k, ds, _)) =>
      k <= 3 - attemptsMade /\ length ds <= 2 - attemptsMade
      /\ forall i d, ds !! i = Some d -> d = 2000 * 2 ^ (attemptsMade + i)
  end.
Proof.
  revert attemptsMade w. induction fuel as [|fuel IH]; intros made w Hm; cbn [run_job].
  - split; [lia | split; [cbn; lia | intros i d Hi; discriminate]].
  - destruct (processOrder made (envs made) orderId w) as [w1 [e|u]].
    2:{ split; [lia | split; [cbn; lia | intros i d Hi; discriminate]]. }
    rewrite retry_backoff_createOrder.
    destruct (Nat.ltb_spec (S made) 3) as [Hlt|Hge].
    + specialize (IH (S made) w1 ltac:(lia)).
      destruct (run_job createOrder_opts fuel (S made) envs orderId w1) as [w2 [[k ds] en]].
      destruct IH as (Hk & Hl & Hd).
      split; [lia|]. split; [cbn; lia|].
      intros [|i] d Hi; cbn [lookup list_lookup] in Hi.
      * assert (d = 2000 * 2 ^ made) as -> by congruence. rewrite Nat.add_0_r. reflexivity.
      * rewrite (Hd i d Hi). f_equal. f_equal. lia.
    + split; [lia | split; [cbn; lia | intros i d Hi; discriminate]].
Qed.


Lemma bind_getOrderById {B} (env : AttemptEnv) (orderId : string) (k : option OrderRow -> M B)
    (w : World) :
  fault env CallGetOrder = None ->
  bind (getOrderById env orderId) k w = k (orders (db w) !! orderId) (set_db (tick (db w)) w).
Proof. intros H. unfold bind, getOrderById, query. rewrite H. reflexivity. Qed.

Lemma bind_sendStatusM {B} (orderId : string) (st : Status) (p : list (string * Json))
    (k : unit -> M B) (w : World) :
  bind (sendStatusM orderId st p) k w
  = k tt {| db := db w; wss := sendStatus orderId st p (wss w);
            published := published w ++ [(orderId, st)] |}.
Proof. reflexivity. Qed.

Lemma bind_updateOrderStatus {B} (env : AttemptEnv) (orderId : string) (s : Status)
    (e : option string) (k : unit -> M B) (w : World) :
  fault env (CallUpdateStatus s) = None ->
  bind (updateOrderStatus env orderId s e) k w
  = k tt (set_db (tick (update_order orderId (row_set_status s (str_or_null e)) (db w))) w).
Proof. intros H. unfold bind. rewrite updateOrderStatus_run by exact H. reflexivity. Qed.

(** Claim C3 (evaluation at the failing input): the first attempt of the
    job for "o1" writes the execution data (status [confirmed]) but its
    confirmed record is rejected, so the attempt rejects and the queue
    retries it. The retry reads the order, ignores its [confirmed] status
    and overwrites it with [routing]. *)
Lemma redelivered_job_rewrites_confirmed_order :
  (let w1 := fst (processOrder 0 confirmed_record_fails_env "o1" pending_world) in
   status <$> orders (db w1) !! "o1" = Some Confirmed)
  /\ match run_job createOrder_opts 2 0 retry_after_confirm_envs "o1" pending_world with
     | (w2, (k, _, _)) => k = 2 /\ status <$> orders (db w2) !! "o1" = Some Routing
     end.
Proof. split; vm_compute; repeat split. Qed.

(** Claim C3 (amended): [processOrder] never reads the persisted status.
    Given an existing order, a successful read and a successful [routing]
    update, running it on a world where the order's status is any [s]
    gives the same result and final world as on the original world. So an
    order already [confirmed] or [failed] is re-processed and rewritten
    like any other. *)
Theorem processOrder_ignores_persisted_status (attemptsMade : nat) (env : AttemptEnv)
    (orderId : string) (o : OrderRow) (s : Status) (w : World) :
  orders (db w) !! orderId = Some o ->
  fault env CallGetOrder = None -> fault env (CallUpdateStatus Routing) = None ->
  processOrder attemptsMade env orderId (with_persisted_status orderId o s w)
  = processOrder attemptsMade env orderId w.
Proof.
  intros Ho Hg Hu. unfold processOrder, catch.
  rewrite !bind_getOrderById by exact Hg.
  unfold with_persisted_status. cbn [db set_db orders order_attempts clock tick wss published].
  rewrite lookup_insert_eq, Ho. cbn iota beta.
  rewrite !bind_sendStatusM, !bind_updateOrderStatus by exact Hu.
  unfold update_order. cbn [db set_db orders order_attempts clock tick wss published].
  rewrite lookup_insert_eq, Ho, insert_insert_eq. reflexivity.
Qed.

Lemma processOrder_ignores_persisted_status_witness :
  orders (db confirmed_world) !! "o1" = Some confirmed_row
  /\ processOrder 0 (no_fault_env "tx2") "o1"
       (with_persisted_status "o1" confirmed_row Pending confirmed_world)
     = processOrder 0 (no_fault_env "tx2") "o1" confirmed_world.
Proof.
  split; [reflexivity|].
  apply (processOrder_ignores_persisted_status 0 (no_fault_env "tx2") "o1" confirmed_row Pending
           confirmed_world); reflexivity.
Defined.

(** Claim C5 (amended): with the options of [createOrder] (3 attempts,
    exponential backoff of base 2000), the delay after failed attempt [n]
    is [2000 * 2^(n-1)] for [n < 3] and there is none from [n = 3] on.
    A job run therefore waits at most twice, 2000 then 4000 ms. *)
Theorem createOrder_backoff_delays (fuel : nat) (envs : nat -> AttemptEnv) (orderId : string)
    (w : World) :
  (forall n, retry_backoff createOrder_opts n
             = if n <? max_retries then Some (2000 * 2 ^ (n - 1)) else None)
  /\ match run_job createOrder_opts fuel 0 envs orderId w with
     | (_, (_, ds, _)) => length ds <= 2 /\ forall i d, ds !! i = Some d -> d = 2000 * 2 ^ i
     end.
Proof.
  split; [reflexivity|].
  pose proof (run_job_runs_delays fuel 0 envs orderId w ltac:(lia)) as H.
  destruct (run_job createOrder_opts fuel 0 envs orderId w) as [w' [[k ds] en]].
  destruct H as (_ & Hl & Hd). split; [lia | exact Hd].
Qed.

(** Claim C5 (evaluation at the failing input): the third failed attempt
    gets no 8000 ms backoff. A job whose order read always fails runs three
    times, waits 2000 and 4000 ms, and is then dead. *)
Lemma third_attempt_has_no_backoff :
  retry_backoff createOrder_opts 3 = None
  /\ match run_job createOrder_opts 5 0 (fun _ => read_fails_env) "o1" confirmed_world with
     | (_, (k, ds, en)) => k = 3 /\ ds = [2000; 4000] /\ en = JobDead "connection refused"
     end.
Proof. split; vm_compute; repeat split. Qed.





(* ------------------------------------------------------------------ *)
(** ** Further properties of the router, the order service, the worker,
    the socket registry and the HTTP route *)

Open Scope Q_scope.


Lemma ascii_lower_idem (c : Ascii.ascii) : ascii_lower (ascii_lower c) = ascii_lower c.
Proof. destruct c as [[][][][][][][][]]; reflexivity. Qed.

Lemma toLowerCase_idem (s : string) : toLowerCase (toLowerCase s) = toLowerCase s.
Proof. induction s as [|c s IH]; cbn; [reflexivity|]. rewrite ascii_lower_idem, IH. reflexivity. Qed.

(** Token symbols are compared in lower case: lower-casing them first does
    not change any quote of [routeBestPrice]. *)
Theorem routeBestPrice_case_insensitive (tokenIn tokenOut : string) (amountIn rndR rndM : Q) :
  routeBestPrice (toLowerCase tokenIn) (toLowerCase tokenOut) amountIn rndR rndM
  = routeBestPrice tokenIn tokenOut amountIn rndR rndM.
Proof.
  unfold routeBestPrice, getRaydiumQuote, getMeteorQuote, calculateBasePrice.
  rewrite !toLowerCase_idem. reflexivity.
Qed.




Close Scope Q_scope.

Lemma string_get_lt (n : nat) (s : string) :
  (n < String.length s)%nat -> exists c, String.get n s = Some c.
Proof.
  revert n. induction s as [|c s IH]; intros n Hn; cbn in *; [lia|].
  destruct n as [|n]; [eexists; reflexivity|]. apply IH. lia.
Qed.

Lemma string_get_in (n : nat) (s : string) (c : Ascii.ascii) :
  String.get n s = Some c -> In c (String.list_ascii_of_string s).
Proof.
  revert n. induction s as [|c' s IH]; intros n Hn; cbn in *; [discriminate|].
  destruct n as [|n]; [left; congruence | right; exact (IH n Hn)].
Qed.

Lemma list_ascii_of_string_append (s t : string) :
  String.list_ascii_of_string (s +:+ t)
  = String.list_ascii_of_string s ++ String.list_ascii_of_string t.
Proof. induction s as [|c s IH]; [reflexivity|]. simpl. rewrite <- IH. reflexivity. Qed.

Lemma length_append (s t : string) :
  String.length (s +:+ t) = (String.length s + String.length t)%nat.
Proof. induction s as [|c s IH]; [reflexivity|]. simpl. rewrite <- IH. reflexivity. Qed.

Lemma charAt_txHash_chars (r : Q) :
  (0 <= r)%Q -> (r < 1)%Q ->
  exists c, charAt txHash_chars
              (Qfloor (r * inject_Z (Z.of_nat (String.length txHash_chars)))) = String c ""
         /\ In c (String.list_ascii_of_string txHash_chars).
Proof.
  intros H0 H1.
  set (x := (r * inject_Z (Z.of_nat (String.length txHash_chars)))%Q).
  assert (Hx0 : (0 <= x)%Q) by (unfold x; change (inject_Z _) with (58 # 1)%Q; lra).
  assert (Hx1 : (x < 58)%Q) by (unfold x; change (inject_Z _) with (58 # 1)%Q; lra).
  pose proof (Qfloor_le x) as Hf. pose proof (Qlt_floor x) as Hf'.
  assert (Hz0 : (0 <= Qfloor x)%Z).
  { assert (Hlt : (-1 < Qfloor x)%Z); [|lia].
    rewrite Zlt_Qlt. rewrite inject_Z_plus in Hf'. change (inject_Z 1) with 1%Q in Hf'.
    change (inject_Z (-1)) with (-1)%Q. lra. }
  assert (Hz1 : (Qfloor x < 58)%Z).
  { rewrite Zlt_Qlt. change (inject_Z 58) with 58%Q. lra. }
  unfold charAt. destruct (Z.ltb_spec (Qfloor x) 0) as [|_]; [lia|].
  destruct (string_get_lt (Z.to_nat (Qfloor x)) txHash_chars) as [c Hc].
  { change (String.length txHash_chars) with 58%nat. lia. }
  rewrite Hc. exists c. split; [reflexivity|]. exact (string_get_in _ _ _ Hc).
Qed.

Lemma generate_loop (rnd : nat -> Q) (l : list nat) (h : string) :
  (forall i, In i l -> (0 <= rnd i)%Q /\ (rnd i < 1)%Q) ->
  let h' := fold_left (fun hash i =>
      hash +:+ charAt txHash_chars
                 (Qfloor (rnd i * inject_Z (Z.of_nat (String.length txHash_chars)))))
    l h in
  String.length h' = (String.length h + length l)%nat
  /\ (Forall (fun c => In c (String.list_ascii_of_string txHash_chars))
        (String.list_ascii_of_string h) ->
      Forall (fun c => In c (String.list_ascii_of_string txHash_chars))
        (String.list_ascii_of_string h')).
Proof.
  revert h. induction l as [|i l IH]; intros h Hr; cbn zeta; cbn [fold_left].
  - split; [cbn; lia | exact (fun H => H)].
  - destruct (charAt_txHash_chars (rnd i)) as (c & Hc & Hin); try apply Hr; [left; reflexivity ..|].
    rewrite Hc.
    destruct (IH (h +:+ String c "")) as [Hl Hf]; [intros j Hj; apply Hr; right; exact Hj|].
    split.
    + rewrite Hl, length_append. cbn. lia.
    + intros Hh. apply Hf. rewrite list_ascii_of_string_append. apply Forall_app. split; [exact Hh|].
      cbn. constructor; [exact Hin | constructor].
Qed.

Lemma txHash_chars_excludes (c : Ascii.ascii) :
  In c (String.list_ascii_of_string txHash_chars) ->
  c <> "0"%char /\ c <> "O"%char /\ c <> "I"%char /\ c <> "l"%char.
Proof.
  intros H.
  assert (Hb : forallb (fun c => negb (Ascii.eqb c "0") && negb (Ascii.eqb c "O")
                                 && negb (Ascii.eqb c "I") && negb (Ascii.eqb c "l"))
                 (String.list_ascii_of_string txHash_chars) = true) by reflexivity.
  rewrite forallb_forall in Hb. specialize (Hb c H).
  destruct (Ascii.eqb_spec c "0"), (Ascii.eqb_spec c "O"), (Ascii.eqb_spec c "I"),
    (Ascii.eqb_spec c "l"); try discriminate Hb.
  repeat split; assumption.
Qed.

(** With every draw in [0,1), [generateMockTxHash] returns 64 characters,
    each taken from its base58 alphabet, so the hash never contains [0],
    [O], [I] or [l]. *)
Theorem generateMockTxHash_base58 (rnd : nat -> Q) :
  (forall i, (i < 64)%nat -> (0 <= rnd i)%Q /\ (rnd i < 1)%Q) ->
  String.length (generateMockTxHash rnd) = 64%nat
  /\ Forall (fun c => In c (String.list_ascii_of_string txHash_chars))
       (String.list_ascii_of_string (generateMockTxHash rnd))
  /\ ~ In "0"%char (String.list_ascii_of_string (generateMockTxHash rnd))
  /\ ~ In "O"%char (String.list_ascii_of_string (generateMockTxHash rnd))
  /\ ~ In "I"%char (String.list_ascii_of_string (generateMockTxHash rnd))
  /\ ~ In "l"%char (String.list_ascii_of_string (generateMockTxHash rnd)).
Proof.
  intros Hr. unfold generateMockTxHash.
  destruct (generate_loop rnd (seq 0 64) "") as [Hl Hf].
  { intros i Hi. apply Hr. apply in_seq in Hi. lia. }
  rewrite length_seq in Hl.
  set (h := fold_left _ (seq 0 64) "") in *. clearbody h.
  assert (Hall : Forall (fun c => In c (String.list_ascii_of_string txHash_chars))
                   (String.list_ascii_of_string h)).
  { apply Hf. constructor. }
  split; [exact Hl|]. split; [exact Hall|].
  rewrite List.Forall_forall in Hall.
  repeat split; intros Hc; destruct (txHash_chars_excludes _ (Hall _ Hc)) as (H0 & HO & HI & Hl');
    first [exact (H0 eq_refl) | exact (HO eq_refl) | exact (HI eq_refl) | exact (Hl' eq_refl)].
Qed.

Lemma generateMockTxHash_base58_witness :
  (forall i, (i < 64)%nat -> (0 <= (1 # 2)%Q)%Q /\ ((1 # 2)%Q < 1)%Q)
  /\ String.length (generateMockTxHash (fun _ => (1 # 2)%Q)) = 64%nat
  /\ Forall (fun c => In c (String.list_ascii_of_string txHash_chars))
       (String.list_ascii_of_string (generateMockTxHash (fun _ => (1 # 2)%Q)))
  /\ ~ In "0"%char (String.list_ascii_of_string (generateMockTxHash (fun _ => (1 # 2)%Q)))
  /\ ~ In "O"%char (String.list_ascii_of_string (generateMockTxHash (fun _ => (1 # 2)%Q)))
  /\ ~ In "I"%char (String.list_ascii_of_string (generateMockTxHash (fun _ => (1 # 2)%Q)))
  /\ ~ In "l"%char (String.list_ascii_of_string (generateMockTxHash (fun _ => (1 # 2)%Q))).
Proof.
  split; [intros i _; split; lra|].
  apply generateMockTxHash_base58. intros i _. split; lra.
Defined.









Lemma update_order_inputs (oid : string) (f : OrderRow -> OrderRow) (d : DB) :
  (forall o, inputs_of (f o) = inputs_of o) ->
  inputs_of <$> orders (update_order oid f d) = inputs_of <$> orders d.
Proof.
  intros Hf. unfold update_order. destruct (orders d !! oid) as [o|] eqn:E; [|reflexivity].
  cbn [orders]. rewrite fmap_insert, Hf. apply insert_id. rewrite lookup_fmap, E. reflexivity.
Qed.

Lemma keeps_inputs_query {A} (m : gmap string (string * string * string * string * Q * string * Q))
    (env : AttemptEnv) (c : DbCall) (q : DB -> Err + (DB * A)) :
  (forall d d' a, q d = inr (d', a) -> inputs_of <$> orders d' = inputs_of <$> orders d) ->
  preserves (fun w => order_inputs w = m) (query env c q).
Proof.
  intros Hq w Hw. unfold query.
  destruct (fault env c); [exact Hw|].
  destruct (q (db w)) as [e|[d' a]] eqn:E; [exact Hw|].
  unfold order_inputs in *. cbn. rewrite (Hq _ _ _ E). exact Hw.
Qed.

Lemma keeps_inputs_updateOrderStatus m env orderId s e :
  preserves (fun w => order_inputs w = m) (updateOrderStatus env orderId s e).
Proof.
  apply keeps_inputs_query. intros d d' a [= <- _]. apply update_order_inputs. reflexivity.
Qed.

Lemma keeps_inputs_updateOrderExecution m env orderId u :
  preserves (fun w => order_inputs w = m) (updateOrderExecution env orderId u).
Proof.
  apply keeps_inputs_query. intros d d' a [= <- _]. apply update_order_inputs. reflexivity.
Qed.

Lemma keeps_inputs_recordAttempt m env orderId n s e dx :
  preserves (fun w => order_inputs w = m) (recordAttempt env orderId n s e dx).
Proof.
  apply keeps_inputs_query. intros d d' a Hq.
  unfold record_attempt in Hq. destruct (orders d !! orderId); [|discriminate].
  injection Hq as <- _. reflexivity.
Qed.

Lemma keeps_inputs_getOrderById m env orderId :
  preserves (fun w => order_inputs w = m) (getOrderById env orderId).
Proof. apply keeps_inputs_query. intros d d' a [= <- _]. reflexivity. Qed.

Lemma keeps_inputs_sendStatusM m orderId st p :
  preserves (fun w => order_inputs w = m) (sendStatusM orderId st p).
Proof. intros w Hw. exact Hw. Qed.

Create HintDb inputs.

#[local] Hint Resolve keeps_inputs_updateOrderStatus keeps_inputs_updateOrderExecution
  keeps_inputs_recordAttempt keeps_inputs_getOrderById keeps_inputs_sendStatusM
  preserves_ret preserves_throw preserves_lift : inputs.

(** Whatever the database faults and draws, a run of [processOrder] never
    changes the creation fields (id, wallet, tokens, amount, order type,
    slippage) of any order, and never adds or removes an order. *)
Theorem processOrder_keeps_order_inputs (attemptsMade : nat) (env : AttemptEnv)
    (orderId : string) (w : World) :
  order_inputs (processOrder attemptsMade env orderId w).1 = order_inputs w.
Proof.
  cut (preserves (fun w' => order_inputs w' = order_inputs w)
         (processOrder attemptsMade env orderId)).
  { intros H. exact (H w eq_refl). }
  unfold processOrder. cbv zeta.
  apply preserves_catch; [|intros e].
  - apply preserves_bind; [auto with inputs|]. intros [order|]; [|auto with inputs].
    repeat (apply preserves_bind; [auto with inputs | intros ?]). auto with inputs.
  - repeat (apply preserves_bind; [|intros ?]); auto with inputs.
    destruct (max_retries <=? S attemptsMade);
      [apply preserves_bind; [|intros ?]|]; auto with inputs.
Qed.




Lemma no_new_failure_query {A} (w0 : World) (env : AttemptEnv) (c : DbCall)
    (q : DB -> Err + (DB * A)) :
  (forall d d' a, q d = inr (d', a) -> forall k o', orders d' !! k = Some o' ->
     status o' = Failed -> exists o, orders d !! k = Some o /\ status o = Failed) ->
  preserves (no_new_failure w0) (query env c q).
Proof.
  intros Hq w [Hp Hs]. unfold query.
  destruct (fault env c); [split; assumption|].
  destruct (q (db w)) as [e|[d' a]] eqn:E; [split; assumption|].
  split; [exact Hp|]. cbn. intros k o' Hk Hf.
  destruct (Hq _ _ _ E k o' Hk Hf) as (o & Ho & Hfo). exact (Hs k o Ho Hfo).
Qed.

Lemma update_order_no_failure (oid : string) (f : OrderRow -> OrderRow) (d : DB) :
  (forall o, status (f o) <> Failed) ->
  forall k o', orders (update_order oid f d) !! k = Some o' -> status o' = Failed ->
  exists o, orders d !! k = Some o /\ status o = Failed.
Proof.
  intros Hf k o'. unfold update_order. destruct (orders d !! oid) as [o|] eqn:E.
  - cbn [orders]. destruct (decide (oid = k)) as [<-|Hne].
    + rewrite lookup_insert_eq. intros [= <-] Hs. exfalso. exact (Hf o Hs).
    + rewrite lookup_insert_ne by exact Hne. intros Hk Hs. exists o'. split; assumption.
  - intros Hk Hs. exists o'. split; assumption.
Qed.

Lemma no_new_failure_updateOrderStatus w0 env orderId s e :
  s <> Failed -> preserves (no_new_failure w0) (updateOrderStatus env orderId s e).
Proof.
  intros Hs. apply no_new_failure_query. intros d d' a [= <- _].
  apply update_order_no_failure. intros o. exact Hs.
Qed.

Lemma no_new_failure_updateOrderExecution w0 env orderId u :
  upd_status u <> Failed -> preserves (no_new_failure w0) (updateOrderExecution env orderId u).
Proof.
  intros Hs. apply no_new_failure_query. intros d d' a [= <- _].
  apply update_order_no_failure. intros o. exact Hs.
Qed.

Lemma no_new_failure_recordAttempt w0 env orderId n s e dx :
  preserves (no_new_failure w0) (recordAttempt env orderId n s e dx).
Proof.
  apply no_new_failure_query. intros d d' a Hq k o' Hk Hs.
  unfold record_attempt in Hq. destruct (orders d !! orderId); [|discriminate].
  injection Hq as <- _. exists o'. split; assumption.
Qed.

Lemma no_new_failure_getOrderById w0 env orderId :
  preserves (no_new_failure w0) (getOrderById env orderId).
Proof.
  apply no_new_failure_query. intros d d' a [= <- _] k o' Hk Hs. exists o'. split; assumption.
Qed.

Lemma no_new_failure_sendStatusM w0 orderId st p :
  st <> Failed -> preserves (no_new_failure w0) (sendStatusM orderId st p).
Proof.
  intros Hst w [(l & Hl & Hf) Hs]. split; [|exact Hs].
  exists (l ++ [(orderId, st)]). cbn. split.
  - rewrite Hl, app_assoc. reflexivity.
  - apply Forall_app. split; [exact Hf | constructor; [exact Hst | constructor]].
Qed.

Create HintDb nofail.

#[local] Hint Resolve no_new_failure_updateOrderStatus no_new_failure_updateOrderExecution
  no_new_failure_recordAttempt no_new_failure_getOrderById no_new_failure_sendStatusM
  preserves_ret preserves_throw preserves_lift : nofail.
#[local] Hint Extern 1 (_ <> Failed) => discriminate : nofail.
#[local] Hint Extern 1 (upd_status _ <> Failed) => cbn; discriminate : nofail.





Lemma update_order_attempts (oid : string) (f : OrderRow -> OrderRow) (d : DB) :
  order_attempts (update_order oid f d) = order_attempts d.
Proof. unfold update_order. destruct (orders d !! oid); reflexivity. Qed.

Lemma bind_recordAttempt {B} (env : AttemptEnv) (orderId : string) (n : nat) (s : Status)
    (e : option string) (dx : option Dex) (k : unit -> M B) (w : World) (o : OrderRow) :
  fault env (CallRecordAttempt s) = None -> orders (db w) !! orderId = Some o ->
  bind (recordAttempt env orderId n s e dx) k w
  = k tt (set_db (tick {| orders := orders (db w);
                          order_attempts := upsert_attempt orderId n s (str_or_null e) dx
                                              (clock (db w)) (order_attempts (db w));
                          clock := clock (db w) |}) w).
Proof. intros H Ho. unfold bind. rewrite (recordAttempt_run _ _ _ _ _ _ _ o H Ho). reflexivity. Qed.

Lemma bind_updateOrderExecution {B} (env : AttemptEnv) (orderId : string) (u : ExecutionUpdate)
    (k : unit -> M B) (w : World) :
  fault env CallUpdateExecution = None ->
  bind (updateOrderExecution env orderId u) k w
  = k tt (set_db (tick (update_order orderId (row_set_execution u) (db w))) w).
Proof. intros H. unfold bind, updateOrderExecution, query. rewrite H. reflexivity. Qed.


Open Scope Q_scope.


Close Scope Q_scope.












(** [closeConnection] removes the order's entry from the registry and
    keeps every other entry, so [getActiveConnectionCount] drops by one exactly when the order was
    registered. It writes no message and leaves the socket not open. After
    it, [sendStatus] for that order does nothing. *)
Theorem closeConnection_effect (orderId : string) (w : WsState) :
  let w' := closeConnection orderId w in
  orderConnections w' = delete orderId (orderConnections w)
  /\ getActiveConnectionCount w'
     + (match orderConnections w !! orderId with Some _ => 1 | None => 0 end)%nat
     = getActiveConnectionCount w
  /\ (forall sid, sent <$> sockets w' !! sid = sent <$> sockets w !! sid)
  /\ (forall sid s, orderConnections w !! orderId = Some sid -> sockets w !! sid = Some s ->
      exists s', sockets w' !! sid = Some s' /\ readyState s' <> OPEN)
  /\ (forall st payload, sendStatus orderId st payload w' = w').
Proof.
  cbv zeta. unfold closeConnection, getActiveConnectionCount.
  destruct (orderConnections w !! orderId) as [sid|] eqn:E.
  - unfold socket_begin_close.
    destruct (sockets w !! sid) as [s|] eqn:Es;
      [destruct (decide (readyState s = CLOSED)) as [Hc|Hc]|]; cbn;
      (split; [reflexivity|]);
      (split; [rewrite map_size_delete, E; cbn;
               assert (size (orderConnections w) <> 0)%nat
                 by (apply map_size_ne_0_lookup_2 with orderId; rewrite E; eexists; reflexivity);
               lia|]);
      (split; [|split]);
      try (intros st p; unfold sendStatus; cbn; rewrite lookup_delete_eq; reflexivity).
    + intros; reflexivity.
    + intros sid' s' Hsid Hs'. injection Hsid as <-. rewrite Es in Hs'. injection Hs' as <-.
      exists s. split; [exact Es|]. rewrite Hc. discriminate.
    + intros sid'. destruct (decide (sid' = sid)) as [->|Hne].
      * rewrite lookup_insert_eq, Es. reflexivity.
      * rewrite lookup_insert_ne by congruence. reflexivity.
    + intros sid' s' Hsid Hs'. injection Hsid as <-.
      exists {| readyState := CLOSING; sent := sent s |}.
      rewrite lookup_insert_eq. split; [reflexivity | discriminate].
    + intros; reflexivity.
    + intros sid' s' Hsid Hs'. injection Hsid as <-. congruence.
  - cbn. rewrite delete_id by exact E. repeat split; try reflexivity.
    + lia.
    + intros; discriminate.
    + intros st p. unfold sendStatus. rewrite E. reflexivity.
Qed.


(** While the order's registered socket is open, a sequence of
    [sendStatus] calls appends exactly their envelopes, in call order, to
    that socket and to no other. The registry is unchanged. *)
Theorem sendStatus_sequence (orderId : string) (sid : nat) (s : Socket)
    (l : list (Status * list (string * Json))) (w : WsState) :
  orderConnections w !! orderId = Some sid -> sockets w !! sid = Some s ->
  readyState s = OPEN ->
  publish_all orderId l w =
  {| orderConnections := orderConnections w;
     sockets := <[sid := {| readyState := OPEN;
                           sent := sent s ++ map (fun sp => MsgStatus orderId sp.1 sp.2) l |}]>
                  (sockets w);
     closeHandlers := closeHandlers w |}.
Proof.
  unfold publish_all. revert s w.
  induction l as [|[st p] l IH]; intros s w Hc Hs Ho; cbn.
  - rewrite app_nil_r, <- Ho. destruct s; cbn.
    rewrite insert_id by exact Hs. destruct w; reflexivity.
  - unfold sendStatus at 2. rewrite Hc, Hs, decide_True by exact Ho.
    unfold socket_send. rewrite Hs, decide_True by exact Ho.
    rewrite (IH {| readyState := readyState s; sent := sent s ++ [MsgStatus orderId st p] |}).
    + cbn. rewrite insert_insert_eq, <- app_assoc. reflexivity.
    + exact Hc.
    + cbn. apply lookup_insert_eq.
    + exact Ho.
Qed.

Lemma sendStatus_sequence_witness :
  orderConnections (reg_register "o1" 1 two_open_sockets) !! "o1" = Some 1%nat
  /\ sockets (reg_register "o1" 1 two_open_sockets) !! 1%nat
     = Some {| readyState := OPEN; sent := [] |}
  /\ readyState {| readyState := OPEN; sent := [] |} = OPEN
  /\ publish_all "o1" [(Routing, []); (Confirmed, [("txHash", JStr "tx")])]
       (reg_register "o1" 1 two_open_sockets)
     = {| orderConnections := orderConnections (reg_register "o1" 1 two_open_sockets);
          sockets := <[1%nat := {| readyState := OPEN;
               sent := [] ++ map (fun sp => MsgStatus "o1" sp.1 sp.2)
                         [(Routing, []); (Confirmed, [("txHash", JStr "tx")])] |}]>
               (sockets (reg_register "o1" 1 two_open_sockets));
          closeHandlers := closeHandlers (reg_register "o1" 1 two_open_sockets) |}.
Proof.
  split; [reflexivity|]. split; [reflexivity|]. split; [reflexivity|].
  apply (sendStatus_sequence "o1" 1 {| readyState := OPEN; sent := [] |}); reflexivity.
Defined.





